(** * console-log-extension: a shallow embedding of [src/index.js]

    The logger of [index.js] is embedded function by function:
    - JavaScript strings are lists of UTF-16 code units ([list N]), and the
      string methods the logger calls ([trim], [split], [includes]) are
      written out on them;
    - the regular expression of [findRealCaller] is a term of a small regex
      syntax, run by a backtracking matcher written in the continuation
      style of the ECMAScript specification;
    - the configuration object is a finite map from property keys to
      JavaScript values, merged by object spread;
    - [log] runs in a small state-and-exception monad whose state holds the
      reassignable local [args] and the trace of calls made to the stack
      resolver and to [console.log]. *)

From Stdlib Require Import String Ascii.
From stdpp Require Import gmap list fin_maps.

Set Default Proof Using "Type".

(** ** JavaScript strings *)

Module JsString.

(** A string is a sequence of UTF-16 code units.  No operation below looks
    at the bound [2^16], so code units are plain [N]. *)
Abbreviation jstring := (list N) (only parsing).

(** [str] reads an ASCII literal as a JavaScript string. *)
Fixpoint str (s : string) : jstring :=
  match s with
  | EmptyString => []
  | String a s' => N_of_ascii a :: str s'
  end.
Arguments str _%_string.

(** LineTerminator: LF, CR, LS, PS. *)
Definition is_line_terminator (c : N) : bool :=
  (c =? 10)%N || (c =? 13)%N || (c =? 8232)%N || (c =? 8233)%N.

(** WhiteSpace: TAB, VT, FF, ZWNBSP and the space separators (category Zs). *)
Definition is_white_space (c : N) : bool :=
  (c =? 9)%N || (c =? 11)%N || (c =? 12)%N || (c =? 32)%N || (c =? 160)%N
  || (c =? 5760)%N || ((8192 <=? c)%N && (c <=? 8202)%N) || (c =? 8239)%N
  || (c =? 8287)%N || (c =? 12288)%N || (c =? 65279)%N.

Definition is_trimmed (c : N) : bool := is_white_space c || is_line_terminator c.

Fixpoint trim_start (s : jstring) : jstring :=
  match s with
  | c :: s' => if is_trimmed c then trim_start s' else s
  | [] => []
  end.

(** [String.prototype.trim]. *)
Definition trim (s : jstring) : jstring :=
  rev (trim_start (rev (trim_start s))).

(** [s.split(sep)] for a separator that matches exactly one code unit, given
    by the predicate [p]: ["\n"] in [findRealCaller], and the class
    [[\\/]] there too.  The result is never empty. *)
Fixpoint split_by (p : N → bool) (s : jstring) : list jstring :=
  match s with
  | [] => [[]]
  | c :: s' =>
      if p c then [] :: split_by p s'
      else match split_by p s' with
           | seg :: segs => (c :: seg) :: segs
           | [] => [[c]]
           end
  end.

Fixpoint starts_with (p s : jstring) : bool :=
  match p, s with
  | [], _ => true
  | a :: p', b :: s' => (a =? b)%N && starts_with p' s'
  | _ :: _, [] => false
  end.

(** [s.includes(sub)]. *)
Fixpoint includes (s sub : jstring) : bool :=
  starts_with sub s ||
  match s with
  | [] => false
  | _ :: s' => includes s' sub
  end.

(** Strict equality of two strings. *)
Definition str_eqb (a b : jstring) : bool := bool_decide (a = b).

(** [x || d] where [x] is a string or [undefined] (here [None]): the empty
    string is falsy too. *)
Definition or_str (x : option jstring) (d : jstring) : jstring :=
  match x with
  | Some (c :: s) => c :: s
  | _ => d
  end.

End JsString.
Import JsString.

(** ** Regular expressions *)

Module Regex.

(** The atoms of the frame pattern: a literal code unit, [.] (no [s] flag:
    anything but a line terminator) and [\d] (without the [u] and [v] flags,
    exactly [0] to [9]). *)
Inductive atom :=
| AChar (c : N)
| ADot
| ADigit.

Definition is_digit (c : N) : bool := (48 <=? c)%N && (c <=? 57)%N.

Definition atom_matches (a : atom) (c : N) : bool :=
  match a with
  | AChar x => (x =? c)%N
  | ADot => negb (is_line_terminator c)
  | ADigit => is_digit c
  end.

(** Quantifiers are applied to atoms only, which is all the frame pattern
    needs; [lz] is [true] for the lazy form ([*?], [+?]). *)
Inductive regex :=
| REps
| RAtom (a : atom)
| RSeq (r1 r2 : regex)
| ROpt (r : regex)
| RStar (lz : bool) (a : atom)
| RPlus (lz : bool) (a : atom)
| RGroup (i : nat) (r : regex).

Abbreviation caps := (gmap nat (list N)) (only parsing).

Section Loops.
Context {R : Type}.

(** [a*?]: try the continuation first, take one more atom on failure. *)
Fixpoint star_lazy (a : atom) (k : jstring → option R) (s : jstring) : option R :=
  match k s with
  | Some r => Some r
  | None =>
      match s with
      | c :: s' => if atom_matches a c then star_lazy a k s' else None
      | [] => None
      end
  end.

(** [a*]: take as many atoms as possible, give them back one at a time. *)
Fixpoint star_greedy (a : atom) (k : jstring → option R) (s : jstring) : option R :=
  match s with
  | c :: s' =>
      if atom_matches a c then
        match star_greedy a k s' with
        | Some r => Some r
        | None => k s
        end
      else k s
  | [] => k s
  end.

Definition star (lz : bool) := if lz then star_lazy else star_greedy.

Definition plus (lz : bool) (a : atom) (k : jstring → option R) (s : jstring) : option R :=
  match s with
  | c :: s' => if atom_matches a c then star lz a k s' else None
  | [] => None
  end.
End Loops.

(** The matcher of a pattern at the start of [s], with continuation [k]:
    the first success in backtracking order is the result. *)
Fixpoint rmatch (r : regex) (k : jstring → caps → option caps)
    (s : jstring) (c : caps) : option caps :=
  match r with
  | REps => k s c
  | RAtom a =>
      match s with
      | x :: s' => if atom_matches a x then k s' c else None
      | [] => None
      end
  | RSeq r1 r2 => rmatch r1 (rmatch r2 k) s c
  | ROpt r1 =>
      match rmatch r1 k s c with
      | Some res => Some res
      | None => k s c
      end
  | RStar lz a => star lz a (λ s', k s' c) s
  | RPlus lz a => plus lz a (λ s', k s' c) s
  | RGroup i r1 =>
      rmatch r1 (λ s' c', k s' (<[i := take (length s - length s') s]> c')) s c
  end.

(** [s.match(r)] for a pattern without the [g] flag: the match is tried at
    every start index from [0] to the length, leftmost success first.  The
    result holds the captures; [None] is [null]. *)
Fixpoint regex_exec (r : regex) (s : jstring) : option caps :=
  match rmatch r (λ _ c, Some c) s ∅ with
  | Some c => Some c
  | None =>
      match s with
      | _ :: s' => regex_exec r s'
      | [] => None
      end
  end.

Definition rcat (rs : list regex) : regex := foldr RSeq REps rs.
Definition rlit (s : jstring) : regex := rcat (RAtom ∘ AChar <$> s).

(** What a successful match looks like: the word [w] consumed by a pattern
    and the captures before and after. *)
Inductive matches : regex → jstring → caps → caps → Prop :=
| matches_eps c : matches REps [] c c
| matches_atom a x c : atom_matches a x = true → matches (RAtom a) [x] c c
| matches_seq r1 r2 w1 w2 c c1 c2 :
    matches r1 w1 c c1 → matches r2 w2 c1 c2 → matches (RSeq r1 r2) (w1 ++ w2) c c2
| matches_opt_some r w c c' : matches r w c c' → matches (ROpt r) w c c'
| matches_opt_none r c : matches (ROpt r) [] c c
| matches_star lz a w c :
    Forall (λ x, atom_matches a x = true) w → matches (RStar lz a) w c c
| matches_plus lz a w c :
    w ≠ [] → Forall (λ x, atom_matches a x = true) w → matches (RPlus lz a) w c c
| matches_group i r w c c' : matches r w c c' → matches (RGroup i r) w c (<[i := w]> c').

End Regex.
Import Regex.

(** ** The stack resolver *)

Module StackResolver.

Record CallerDescriptor := {
  functionName : list N;
  file : list N;
  line : list N;
}.

(** [/at (.*?) \(?(.+?):(\d+):(\d+)\)?/] *)
Definition frame_re : regex :=
  rcat [ rlit (str "at "); RGroup 1 (RStar true ADot); rlit (str " ");
         ROpt (rlit (str "("));
         RGroup 2 (RPlus true ADot); rlit (str ":");
         RGroup 3 (RPlus false ADigit); rlit (str ":");
         RGroup 4 (RPlus false ADigit);
         ROpt (rlit (str ")")) ].

(** [line.match(...)]: the captures, or [None] for [null]. *)
Definition frame_match (l : jstring) : option caps := regex_exec frame_re l.

(** [/[\\/]/] *)
Definition is_separator (c : N) : bool := (c =? 92)%N || (c =? 47)%N.

(** The sentinel descriptor returned when no frame is found. *)
Definition unknown_descriptor : CallerDescriptor :=
  {| functionName := str "Global Scope"; file := str "unknown"; line := str "?" |}.

(** The three locals read off a match. *)
Definition frame_func (m : caps) : jstring := or_str (m !! 1) (str "Global Scope").
Definition frame_fullPath (m : caps) : jstring := or_str (m !! 2) (str "unknown").
Definition frame_lineNum (m : caps) : jstring := or_str (m !! 3) (str "?").

(** The test that skips references to the logger. *)
Definition is_logger_frame (m : caps) : bool :=
  includes (frame_fullPath m) (str "console-logger-fresh.js")
  || includes (frame_fullPath m) (str "console_log_extension_fresh")
  || includes (frame_func m) (str "ConsoleLogExtension").

(** The descriptor built from a frame that is not skipped. *)
Definition frame_descriptor (m : caps) : CallerDescriptor :=
  {| functionName :=
       if negb (str_eqb (frame_func m) (str "<anonymous>")) then frame_func m
       else str "Global Scope";
     file := or_str (last (split_by is_separator (frame_fullPath m))) (str "unknown");
     line := frame_lineNum m |}.

(** The [for] loop over [stackLines[1..]]. *)
Fixpoint scan (ls : list jstring) : CallerDescriptor :=
  match ls with
  | [] => unknown_descriptor
  | l :: rest =>
      match frame_match l with
      | Some m => if is_logger_frame m then scan rest else frame_descriptor m
      | None => scan rest
      end
  end.

(** [err.stack.split("\n").map((line) => line.trim())] *)
Definition stackLines (trace : jstring) : list jstring :=
  trim <$> split_by (λ c, (c =? 10)%N) trace.

(** The body of [findRealCaller] once the trace text is at hand. *)
Definition resolve (trace : jstring) : CallerDescriptor :=
  scan (drop 1 (stackLines trace)).

(** The filter of [findRealCaller] read on the raw tokens of a frame: the
    path holds one of the two logger-source markers, or the symbol holds the
    name of the logger's class. *)
Definition marked (f p : list N) : bool :=
  includes p (str "console-logger-fresh.js")
  || includes p (str "console_log_extension_fresh")
  || includes f (str "ConsoleLogExtension").

(** A line the loop passes over: it does not match the frame pattern, or its
    tokens are marked. *)
Definition skipped_line (l : list N) : bool :=
  match frame_match l with
  | None => true
  | Some m => marked (default [] (m !! 1%nat)) (default [] (m !! 2%nat))
  end.

End StackResolver.
Import StackResolver.

(** ** JavaScript values and objects *)

Module JsValue.

(** The logger observes the values it is handed (configuration values, the
    arguments of [log]) in three ways only: truthiness, strict equality with
    a string, and conversion to a string or property key.  Primitive strings
    are kept as they are; [VOther] stands for every other value (a number, an
    array, a function, any object) and carries its truthiness and the text of
    its string conversion.  Conversions that run user code which throws are
    outside the model. *)
Inductive value :=
| VUndefined
| VNull
| VBool (b : bool)
| VStr (s : list N)
| VOther (is_truthy : bool) (text : list N).

#[global] Instance value_eq_dec : EqDecision value.
Proof. solve_decision. Defined.

(** ToBoolean. *)
Definition truthy (v : value) : bool :=
  match v with
  | VUndefined | VNull => false
  | VBool b => b
  | VStr s => negb (bool_decide (s = []))
  | VOther t _ => t
  end.

(** ToString (and ToPropertyKey, symbols aside). *)
Definition to_string (v : value) : jstring :=
  match v with
  | VUndefined => str "undefined"
  | VNull => str "null"
  | VBool true => str "true"
  | VBool false => str "false"
  | VStr s => s
  | VOther _ t => t
  end.

(** [v === s] for a string [s]; [Array.prototype.includes] compares with
    SameValueZero, which is the same test against a string. *)
Definition strict_eq_str (v : value) (s : jstring) : bool :=
  match v with
  | VStr x => str_eqb x s
  | _ => false
  end.

(** [a || b] *)
Definition js_or (a b : value) : value := if truthy a then a else b.

(** [parts.join(sep)]: [undefined] and [null] elements give the empty
    string, the others their string conversion. *)
Definition join_item (v : value) : jstring :=
  match v with
  | VUndefined | VNull => []
  | _ => to_string v
  end.

Fixpoint join (sep : jstring) (parts : list value) : jstring :=
  match parts with
  | [] => []
  | [v] => join_item v
  | v :: rest => join_item v ++ sep ++ join sep rest
  end.

(** An object written as a literal, or built by spread: its own properties.
    Its prototype is [Object.prototype]. *)
Abbreviation obj := (gmap (list N) value) (only parsing).

(** The text a built-in function converts to (the NativeFunction form, as
    V8 and JavaScriptCore print it). *)
Definition native_function (name : jstring) : value :=
  VOther true (str "function " ++ name ++ str "() { [native code] }").

(** The properties every such object inherits from [Object.prototype].
    [__proto__] is an accessor that yields the prototype itself. *)
Definition object_prototype (k : jstring) : value :=
  if bool_decide (k = str "constructor") then native_function (str "Object")
  else if bool_decide (k ∈ [str "hasOwnProperty"; str "isPrototypeOf";
                            str "propertyIsEnumerable"; str "toLocaleString";
                            str "toString"; str "valueOf";
                            str "__defineGetter__"; str "__defineSetter__";
                            str "__lookupGetter__"; str "__lookupSetter__"])
       then native_function k
  else if bool_decide (k = str "__proto__") then VOther true (str "[object Object]")
  else VUndefined.

(** [o[k]] and [o.k]: an own property, else the inherited one, else
    [undefined]. *)
Definition get_prop (o : obj) (k : jstring) : value :=
  match o !! k with
  | Some v => v
  | None => object_prototype k
  end.

End JsValue.
Import JsValue.

(** ** The logger *)

Module LogFacade.

(** [this.config] as the constructor sets it. *)
Definition default_config : obj :=
  list_to_map [
    (str "theme", VStr (str "dark"));
    (str "showDate", VBool true);
    (str "showFilename", VBool true);
    (str "showLineNumber", VBool true);
    (str "showLogLevel", VBool true);
    (str "useEmojis", VBool true);
    (str "disable", VBool false);
    (str "errorHandling", VStr (str "silent")) ].

(** [init(userConfig = {})]: the new value of [this.config].  An omitted
    argument is [None]; spreading [userConfig] after [this.config] lets its
    own properties win. *)
Definition init (config : obj) (userConfig : option obj) : obj :=
  default ∅ userConfig ∪ config.

Definition knownLevels : list (list N) :=
  [str "[INFO]"; str "[WARNING]"; str "[ERROR]"; str "[DEBUG]"].

(** [knownLevels.includes(msg) ? msg : null] *)
Definition detectLogLevel (msg : value) : value :=
  if existsb (strict_eq_str msg) knownLevels then msg else VNull.

(** The emoji table, code unit by code unit as [index.js] spells it. *)
Definition mapping : obj :=
  list_to_map [
    (str "[INFO]", VStr [8218; 209; 960; 212; 8719; 232]%N);
    (str "[WARNING]", VStr [8218; 246; 8224; 212; 8719; 232]%N);
    (str "[ERROR]", VStr [8218; 249; 229]%N);
    (str "[DEBUG]", VStr [63743; 252; 234; 251]%N);
    (str "[LOG]", VStr [63743; 252; 236; 249]%N) ].

(** [mapping[level] || mapping["[LOG]"]] *)
Definition getLogLevelEmoji (level : value) : value :=
  js_or (get_prop mapping (to_string level))
        (get_prop mapping (str "[LOG]")).

Definition levelStyles : obj :=
  list_to_map [
    (str "[INFO]", VStr (str "color: blue; font-weight: bold;"));
    (str "[WARNING]", VStr (str "color: orange; font-weight: bold;"));
    (str "[ERROR]", VStr (str "color: red; font-weight: bold;"));
    (str "[DEBUG]", VStr (str "color: gray; font-style: italic;"));
    (str "[LOG]", VStr []) ].

Definition themeStyles : obj :=
  list_to_map [
    (str "dark", VStr (str "color: white;"));
    (str "light", VStr (str "color: black;"));
    (str "neon", VStr (str "color: cyan; font-weight: bold;"));
    (str "minimal", VStr (str "color: gray; font-style: italic;")) ].

(** [getThemeStyles(theme, level)].  Both operands of the final [+] come
    out of the two tables or of [Object.prototype]: strings and objects, so
    [+] concatenates their string conversions. *)
Definition getThemeStyles (theme level : value) : value :=
  let finalLevelStyle := js_or (get_prop levelStyles (to_string level)) (VStr []) in
  let finalThemeStyle :=
    js_or (get_prop themeStyles (to_string theme)) (get_prop themeStyles (str "dark")) in
  VStr (to_string finalLevelStyle ++ to_string finalThemeStyle).

(** *** The host and the effects of [log] *)

(** An exception: the [TypeError] of a property read on a non-string
    [err.stack], or whatever value the host's [console.log] throws. *)
Inductive error :=
| TypeError
| Thrown (v : value).

(** What the host provides to one call of [log]: the value of
    [new Error().stack], the text of [new Date().toLocaleString()], and
    [console.log], which renders its arguments ([None]) or throws. *)
Record host := {
  stack : value;
  now : list N;
  console : list value → option error;
}.

(** The calls [log] makes, in order: an entry into [findRealCaller], an
    invocation of [console.log] with its arguments. *)
Inductive event :=
| Resolver
| ConsoleLog (args : list value).

(** The invocations of [console.log] in a trace that the host rendered. *)
Definition output (h : host) (evs : list event) : list (list value) :=
  omap (λ e, match e with
             | ConsoleLog a => match console h a with None => Some a | Some _ => None end
             | Resolver => None
             end) evs.

(** The state [log] threads: its reassignable rest parameter [args] and the
    calls made so far. *)
Record lstate := {
  args_var : list value;
  calls : list event;
}.

Inductive result (A : Type) :=
| Ok (a : A)
| Throw (e : error).
Arguments Ok {A} a.
Arguments Throw {A} e.

Definition M (A : Type) : Type := lstate → result A * lstate.

#[global] Instance M_ret : MRet M := λ A a st, (Ok a, st).

#[global] Instance M_bind : MBind M := λ A B f m st,
  match m st with
  | (Ok a, st') => f a st'
  | (Throw e, st') => (Throw e, st')
  end.

Definition throw {A} (e : error) : M A := λ st, (Throw e, st).

(** [try { body } catch (error) { handler }]: what [body] did to the state
    before it threw stays done. *)
Definition try_catch {A} (body : M A) (handler : error → M A) : M A :=
  λ st, match body st with
        | (Ok a, st') => (Ok a, st')
        | (Throw e, st') => handler e st'
        end.

Definition get_args : M (list value) := λ st, (Ok (args_var st), st).

Definition set_args (a : list value) : M unit :=
  λ st, (Ok tt, {| args_var := a; calls := calls st |}).

Definition emit (e : event) : M unit :=
  λ st, (Ok tt, {| args_var := args_var st; calls := calls st ++ [e] |}).

(** [console.log(...a)] *)
Definition console_log (h : host) (a : list value) : M unit :=
  emit (ConsoleLog a) ;;
  match console h a with
  | None => mret tt
  | Some e => throw e
  end.

(** [findRealCaller()]: [err.stack.split] throws unless [err.stack] is a
    string; after that the method is [resolve]. *)
Definition findRealCaller (h : host) : M CallerDescriptor :=
  emit Resolver ;;
  match stack h with
  | VStr trace => mret (resolve trace)
  | _ => throw TypeError
  end.

(** The segments pushed on [prefixParts], for a level and a caller. *)
Definition prefixParts (config : obj) (h : host) (logLevel : value)
    (d : CallerDescriptor) : list value :=
  (if truthy (get_prop config (str "useEmojis")) then [getLogLevelEmoji logLevel] else [])
  ++ (if truthy (get_prop config (str "showDate"))
      then [VStr (str "[" ++ now h ++ str "]")] else [])
  ++ (if truthy (get_prop config (str "showFilename"))
         && negb (str_eqb (file d) (str "unknown"))
      then [VStr (str "[" ++ file d ++ str "]")] else [])
  ++ (if truthy (get_prop config (str "showLineNumber"))
         && negb (str_eqb (line d) (str "?"))
      then [VStr (str "(line " ++ line d ++ str ")")] else [])
  ++ (if truthy (VStr (functionName d))
         && negb (str_eqb (functionName d) (str "Global Scope"))
      then [VStr (str "{" ++ functionName d ++ str "}")] else [])
  ++ [logLevel].

(** [prefixParts.join(" ") + " "] *)
Definition prefix (config : obj) (h : host) (logLevel : value)
    (d : CallerDescriptor) : list N :=
  join (str " ") (prefixParts config h logLevel d) ++ str " ".

(** The arguments of the call of [console.log] that ends the [try] block:
    the prefix behind the style marker, the style, and what [args] holds. *)
Definition styled_call (config : obj) (h : host) (logLevel : value)
    (d : CallerDescriptor) (args : list value) : list value :=
  VStr (str "%c" ++ prefix config h logLevel d)
  :: getThemeStyles (get_prop config (str "theme")) logLevel
  :: args.

(** The body of the [try] block.  The pushes on [prefixParts] that the
    source makes before and after the call of [findRealCaller] have no
    effect of their own; [prefixParts] gathers them. *)
Definition log_try (config : obj) (h : host) : M unit :=
  args ← get_args;
  let detected := detectLogLevel (default VUndefined (args !! 0%nat)) in
  logLevel ← (if truthy detected
              then set_args (drop 1 args) ;; mret detected
              else mret (VStr (str "[LOG]")));
  d ← findRealCaller h;
  args ← get_args;
  console_log h (styled_call config h logLevel d args).

(** The [catch] block. *)
Definition log_catch (config : obj) (h : host) (e : error) : M unit :=
  if strict_eq_str (get_prop config (str "errorHandling")) (str "fallback") then
    args ← get_args; console_log h args
  else if strict_eq_str (get_prop config (str "errorHandling")) (str "throw") then
    throw e
  else mret tt.

(** [log(...args)]: how the call ends, and the calls it made. *)
Definition log (config : obj) (h : host) (args : list value)
    : result unit * list event :=
  if truthy (get_prop config (str "disable")) then (Ok tt, [])
  else
    let '(r, st) := try_catch (log_try config h) (log_catch config h)
                      {| args_var := args; calls := [] |} in
    (r, calls st).

End LogFacade.
Import LogFacade.


(** ** Sample inputs *)

(** A trace as V8 prints it for a call of [log] from a function [main]. *)
Definition trace_nested : list N :=
  str "Error" ++ [10%N]
  ++ str "    at ConsoleLogExtension.findRealCaller (file:///a/index.js:133:19)" ++ [10%N]
  ++ str "    at ConsoleLogExtension.log (file:///a/index.js:95:52)" ++ [10%N]
  ++ str "    at main (file:///home/u/app/main.js:12:3)" ++ [10%N]
  ++ str "    at file:///home/u/app/main.js:20:1".

(** A frame of an inline script of the page at the root of a site. *)
Definition trace_root_url : list N :=
  str "Error" ++ [10%N] ++ str "    at onClick (http://localhost:3000/:12:5)".

(** A frame whose symbol is empty. *)
Definition trace_empty_symbol : list N :=
  str "Error" ++ [10%N] ++ str "    at  /srv/app.js:3:7".



(** A host that hands over [trace_nested] and renders every call. *)
Definition host_rendering : host :=
  {| stack := VStr trace_nested; now := str "now"; console := λ _, None |}.


(** A top-level call as V8 prints it: a location without a symbol. *)
Definition trace_top_level : list N :=
  str "Error" ++ [10%N] ++ str "    at file:///home/u/app/main.js:20:1".

(** A caller whose own class is named after the logger's. *)
Definition trace_homonym : list N :=
  str "Error" ++ [10%N] ++ str "    at MyConsoleLogExtensionTest.run (/srv/t.js:1:2)".

(** A host whose errors carry no [stack] text and whose [console.log]
    throws on every call. *)
Definition host_hostile : host :=
  {| stack := VUndefined; now := str "now"; console := λ _, Some TypeError |}.

(** ** Vocabulary of the further properties *)

(** No colon of [p] is followed by a decimal digit: the pattern cannot end
    the path token of a frame inside such a [p]. *)
Fixpoint no_colon_digit (p : list N) : bool :=
  match p with
  | [] => true
  | x :: rest =>
      negb ((x =? 58)%N && match rest with d :: _ => is_digit d | [] => false end)
      && no_colon_digit rest
  end.

(** The number of spaces of a line. *)
Definition spaces (l : list N) : nat := length (filter (λ c, c = 32%N) l).

(** * Properties *)

(** ** The matcher only succeeds on words of the pattern *)

Section RegexSound.

Lemma star_lazy_sound {R} a (k : list N → option R) s r :
  star_lazy a k s = Some r →
  ∃ w s', s = w ++ s' ∧ Forall (λ x, atom_matches a x = true) w ∧ k s' = Some r.
Proof.
  induction s as [|x s IH]; simpl.
  - destruct (k []) eqn:E; [|done]. intros [= <-]. by exists [], [].
  - destruct (k (x :: s)) eqn:E.
    + intros [= <-]. by exists [], (x :: s).
    + destruct (atom_matches a x) eqn:Ea; [|done].
      intros (w & s' & -> & Hw & Hk)%IH.
      exists (x :: w), s'. split_and!; [done| by constructor |done].
Qed.

Lemma star_greedy_sound {R} a (k : list N → option R) s r :
  star_greedy a k s = Some r →
  ∃ w s', s = w ++ s' ∧ Forall (λ x, atom_matches a x = true) w ∧ k s' = Some r.
Proof.
  induction s as [|x s IH]; simpl.
  - intros Hk. by exists [], [].
  - destruct (atom_matches a x) eqn:Ea.
    + destruct (star_greedy a k s) eqn:E.
      * intros [= <-]. destruct (IH eq_refl) as (w & s' & -> & Hw & Hk).
        exists (x :: w), s'. split_and!; [done| by constructor |done].
      * intros Hk. by exists [], (x :: s).
    + intros Hk. by exists [], (x :: s).
Qed.

Lemma star_sound {R} lz a (k : list N → option R) s r :
  star lz a k s = Some r →
  ∃ w s', s = w ++ s' ∧ Forall (λ x, atom_matches a x = true) w ∧ k s' = Some r.
Proof. destruct lz; [apply star_lazy_sound | apply star_greedy_sound]. Qed.

Lemma plus_sound {R} lz a (k : list N → option R) s r :
  plus lz a k s = Some r →
  ∃ w s', s = w ++ s' ∧ w ≠ [] ∧ Forall (λ x, atom_matches a x = true) w ∧ k s' = Some r.
Proof.
  destruct s as [|x s]; simpl; [done|].
  destruct (atom_matches a x) eqn:Ea; [|done].
  intros (w & s' & -> & Hw & Hk)%star_sound.
  exists (x :: w), s'. split_and!; [done|done| by constructor |done].
Qed.

(** Soundness of the matcher: a success of [rmatch r k] splits the input into
    a word of [r] and a rest on which the continuation succeeded. *)
Lemma rmatch_sound r :
  ∀ k s c res, rmatch r k s c = Some res →
  ∃ w s' c', s = w ++ s' ∧ matches r w c c' ∧ k s' c' = Some res.
Proof.
  induction r as [|a|r1 IH1 r2 IH2|r IH|lz a|lz a|i r IH]; intros k s c res; simpl.
  - intros Hk. exists [], s, c. split_and!; [done|constructor|done].
  - destruct s as [|x s]; [done|]. destruct (atom_matches a x) eqn:Ea; [|done].
    intros Hk. exists [x], s, c. split_and!; [done| by constructor |done].
  - intros (w1 & s1 & c1 & -> & H1 & (w2 & s2 & c2 & -> & H2 & Hk)%IH2)%IH1.
    exists (w1 ++ w2), s2, c2. split_and!; [by rewrite app_assoc | by econstructor | done].
  - destruct (rmatch r k s c) eqn:E.
    + intros [= <-]. apply IH in E as (w & s' & c' & -> & H & Hk).
      exists w, s', c'. split_and!; [done| by constructor |done].
    + intros Hk. exists [], s, c. split_and!; [done|apply matches_opt_none|done].
  - intros (w & s' & -> & Hw & Hk)%star_sound.
    exists w, s', c. split_and!; [done| by constructor |done].
  - intros (w & s' & -> & Hne & Hw & Hk)%plus_sound.
    exists w, s', c. split_and!; [done| by constructor |done].
  - intros (w & s' & c' & -> & H & Hk)%IH.
    exists w, s', (<[i := w]> c'). split_and!; [done| by constructor |].
    rewrite length_app, Nat.add_sub, take_app_length in Hk. done.
Qed.

Lemma regex_exec_sound r s c :
  regex_exec r s = Some c →
  ∃ pre w post, s = pre ++ w ++ post ∧ matches r w ∅ c.
Proof.
  induction s as [|x s IH]; simpl.
  - destruct (rmatch r _ [] ∅) eqn:E; [|done]. intros [= <-].
    apply rmatch_sound in E as (w & s' & c' & Hs & H & [= <-]).
    by exists [], w, s'.
  - destruct (rmatch r _ (x :: s) ∅) eqn:E.
    + intros [= <-].
      apply rmatch_sound in E as (w & s' & c' & Hs & H & [= <-]).
      by exists [], w, s'.
    + intros (pre & w & post & -> & H)%IH. by exists (x :: pre), w, post.
Qed.

Lemma matches_rlit s w c c' : matches (rlit s) w c c' → w = s ∧ c' = c.
Proof.
  revert w c c'. induction s as [|x s IH]; intros w c c' H.
  - by inv H.
  - inv H. match goal with H : matches (RAtom _) _ _ _ |- _ => inv H end.
    match goal with H : matches _ _ _ _ |- _ => apply IH in H as [-> ->] end.
    match goal with H : atom_matches _ _ = true |- _ => simpl in H; apply N.eqb_eq in H as -> end.
    done.
Qed.

Lemma matches_opt_rlit s w c c' :
  matches (ROpt (rlit s)) w c c' → (w = [] ∨ w = s) ∧ c' = c.
Proof.
  intros H. inv H; [|by auto].
  match goal with H : matches _ _ _ _ |- _ => apply matches_rlit in H as [-> ->] end. auto.
Qed.

End RegexSound.

(** ** The shape of a matched frame *)

Section FrameShape.

(** A line that matches the frame pattern reads
    [... at f SP [(] p : n : col [)] ...], and the four captures are [f],
    [p], [n] and [col]: the path is not empty, the two numbers are non-empty
    runs of decimal digits. *)
Lemma frame_match_shape l m :
  frame_match l = Some m →
  ∃ f p n col,
    m !! 1%nat = Some f ∧ m !! 2%nat = Some p ∧ m !! 3%nat = Some n ∧ m !! 4%nat = Some col ∧
    p ≠ [] ∧
    n ≠ [] ∧ Forall (λ c, is_digit c = true) n ∧
    col ≠ [] ∧ Forall (λ c, is_digit c = true) col ∧
    ∃ pre op cl post,
      (op = [] ∨ op = str "(") ∧ (cl = [] ∨ cl = str ")") ∧
      l = pre ++ str "at " ++ f ++ str " " ++ op ++ p ++ str ":" ++ n
              ++ str ":" ++ col ++ cl ++ post.
Proof.
  intros (pre & w & post & -> & H)%regex_exec_sound.
  unfold frame_re, rcat in H; cbn [foldr] in H.
  repeat match goal with
  | H : matches (RSeq _ _) _ _ _ |- _ => inv H
  | H : matches (rlit _) _ _ _ |- _ => apply matches_rlit in H as [-> ->]
  | H : matches (ROpt (rlit _)) _ _ _ |- _ => apply matches_opt_rlit in H as [? ->]
  | H : matches (RGroup _ _) _ _ _ |- _ => inv H
  | H : matches (RStar _ _) _ _ _ |- _ => inv H
  | H : matches (RPlus _ _) _ _ _ |- _ => inv H
  | H : matches REps _ _ _ |- _ => inv H
  end.
  exists w0, w4, w6, w8.
  split_and!; try done; try (by simplify_map_eq).
  exists pre, w3, w9, post. split_and!; [done|done|].
  rewrite <-!app_assoc, app_nil_l. done.
Qed.

End FrameShape.

(** ** The stack resolver *)

Section Resolver.

Lemma or_str_Some (s d : list N) : s ≠ [] → or_str (Some s) d = s.
Proof. by destruct s. Qed.


Lemma frame_fullPath_token l m p :
  frame_match l = Some m → m !! 2%nat = Some p → frame_fullPath m = p.
Proof.
  intros (f & p' & n & col & _ & Hp & _ & _ & Hne & _)%frame_match_shape Hp2.
  unfold frame_fullPath. rewrite Hp2. apply or_str_Some. congruence.
Qed.

Lemma frame_lineNum_token l m n :
  frame_match l = Some m → m !! 3%nat = Some n →
  frame_lineNum m = n ∧ n ≠ [] ∧ Forall (λ c, is_digit c = true) n.
Proof.
  intros (f & p & n' & col & _ & _ & Hn & _ & _ & Hne & Hd & _)%frame_match_shape Hn3.
  assert (n' = n) as -> by congruence.
  unfold frame_lineNum. rewrite Hn3. split_and!; [by apply or_str_Some|done|done].
Qed.

Lemma frame_func_token m f :
  m !! 1%nat = Some f →
  frame_func m = if bool_decide (f = []) then str "Global Scope" else f.
Proof. intros Hf. unfold frame_func. rewrite Hf. by destruct f. Qed.

(** On a matched frame the source's test, which reads the defaulted locals,
    is the filter on the raw tokens. *)
Lemma is_logger_frame_tokens l m f p :
  frame_match l = Some m → m !! 1%nat = Some f → m !! 2%nat = Some p →
  is_logger_frame m = marked f p.
Proof.
  intros Hm Hf Hp. unfold is_logger_frame, marked.
  rewrite (frame_fullPath_token l m p Hm Hp), (frame_func_token m f Hf).
  by destruct f.
Qed.

Lemma skipped_line_scan l rest :
  skipped_line l = true → scan (l :: rest) = scan rest.
Proof.
  unfold skipped_line. simpl. destruct (frame_match l) as [m|] eqn:Hm; [|done].
  destruct (frame_match_shape l m Hm) as (f & p & n & col & Hf & Hp & _).
  rewrite (is_logger_frame_tokens l m f p Hm Hf Hp), Hf, Hp. simpl. by intros ->.
Qed.

Lemma skipped_lines_scan pre rest :
  forallb skipped_line pre = true → scan (pre ++ rest) = scan rest.
Proof.
  induction pre as [|l pre IH]; [done|].
  intros [Hl Hpre]%andb_prop. rewrite <-app_comm_cons, skipped_line_scan by done. auto.
Qed.

(** The loop ends on the sentinel or on the descriptor of a frame of the
    list that the filter let through. *)
Lemma scan_cases ls :
  scan ls = unknown_descriptor
  ∨ ∃ l m, l ∈ ls ∧ frame_match l = Some m ∧ is_logger_frame m = false
           ∧ scan ls = frame_descriptor m.
Proof.
  induction ls as [|l ls IH]; [by left|]. simpl.
  destruct (frame_match l) as [m|] eqn:Hm.
  - destruct (is_logger_frame m) eqn:Hlog.
    + destruct IH as [?|(l' & m' & ? & ? & ? & ?)]; [by left|].
      right. exists l', m'. split_and!; [by constructor|done..].
    + right. exists l, m. split_and!; [by constructor|done..].
  - destruct IH as [?|(l' & m' & ? & ? & ? & ?)]; [by left|].
    right. exists l', m'. split_and!; [by constructor|done..].
Qed.

Lemma split_by_nonempty p (s : list N) : split_by p s ≠ [].
Proof. destruct s as [|c s]; simpl; [done|]. destruct (p c); [done|]. by destruct (split_by p s). Qed.



End Resolver.

Section ResolverClaims.

(** C1, as amended.  When the lines after the header start with lines the
    loop passes over (no match, or marked tokens) followed by a line that
    matches with tokens [f], [p], [n] that are not marked, [resolve] returns
    the data of that frame: the symbol [f], or ["Global Scope"] when [f] is
    empty or is ["<anonymous>"]; the segment of [p] after its last slash or
    backslash, or ["unknown"] when that segment is empty; and [n] itself,
    a non-empty run of decimal digits. *)
Theorem resolve_first_surviving_frame trace pre l post m f p n :
  drop 1 (stackLines trace) = pre ++ l :: post →
  forallb skipped_line pre = true →
  frame_match l = Some m →
  m !! 1%nat = Some f → m !! 2%nat = Some p → m !! 3%nat = Some n →
  marked f p = false →
  resolve trace =
    {| functionName :=
         if bool_decide (f = [] ∨ f = str "<anonymous>") then str "Global Scope" else f;
       file :=
         match last (split_by is_separator p) with
         | Some (c :: seg) => c :: seg
         | _ => str "unknown"
         end;
       line := n |}
  ∧ n ≠ [] ∧ Forall (λ c, is_digit c = true) n.
Proof.
  intros Hlines Hpre Hm Hf Hp Hn Hmark.
  destruct (frame_lineNum_token l m n Hm Hn) as (Hline & Hne & Hdigits).
  split; [|done].
  unfold resolve. rewrite Hlines, skipped_lines_scan by done. simpl.
  rewrite Hm, (is_logger_frame_tokens l m f p Hm Hf Hp), Hmark.
  unfold frame_descriptor.
  rewrite Hline, (frame_fullPath_token l m p Hm Hp), (frame_func_token m f Hf).
  f_equal. unfold str_eqb.
  destruct f as [|c f]; [done|].
  destruct (decide (c :: f = str "<anonymous>")) as [Heq|Hneq].
  - rewrite Heq. reflexivity.
  - rewrite (bool_decide_eq_false_2 (c :: f = [])) by done.
    rewrite (bool_decide_eq_false_2 (c :: f = str "<anonymous>")) by done.
    rewrite (bool_decide_eq_false_2 (_ ∨ _)) by (intros [?|?]; done).
    done.
Qed.

Lemma resolve_first_surviving_frame_witness :
  resolve trace_nested =
    {| functionName := str "main"; file := str "main.js"; line := str "12" |}
  ∧ str "12" ≠ [] ∧ Forall (λ c, is_digit c = true) (str "12").
Proof.
  apply (resolve_first_surviving_frame trace_nested
           [str "at ConsoleLogExtension.findRealCaller (file:///a/index.js:133:19)";
            str "at ConsoleLogExtension.log (file:///a/index.js:95:52)"]
           (str "at main (file:///home/u/app/main.js:12:3)")
           [str "at file:///home/u/app/main.js:20:1"]
           (<[4%nat := str "3"]> (<[3%nat := str "12"]>
              (<[2%nat := str "file:///home/u/app/main.js"]> (<[1%nat := str "main"]> ∅))))
           (str "main") (str "file:///home/u/app/main.js") (str "12"));
    vm_compute; reflexivity.
Defined.

(** C1 as it is stated fails on two frames that match and are not marked.
    The path of the first ends in a slash: its final segment is empty and
    the file returned is ["unknown"].  The symbol of the second is empty,
    which is not ["<anonymous>"], and the function name returned is
    ["Global Scope"]. *)
Lemma resolve_frame_data_counterexample :
  (drop 1 (stackLines trace_root_url) = [str "at onClick (http://localhost:3000/:12:5)"]
   ∧ (frame_match (str "at onClick (http://localhost:3000/:12:5)") ≫= (.!! 2%nat))
     = Some (str "http://localhost:3000/")
   ∧ skipped_line (str "at onClick (http://localhost:3000/:12:5)") = false
   ∧ last (split_by is_separator (str "http://localhost:3000/")) = Some []
   ∧ file (resolve trace_root_url) = str "unknown")
  ∧ (drop 1 (stackLines trace_empty_symbol) = [str "at  /srv/app.js:3:7"]
     ∧ (frame_match (str "at  /srv/app.js:3:7") ≫= (.!! 1%nat)) = Some []
     ∧ skipped_line (str "at  /srv/app.js:3:7") = false
     ∧ [] ≠ str "<anonymous>"
     ∧ functionName (resolve trace_empty_symbol) = str "Global Scope").
Proof. vm_compute. split_and!; done. Qed.




End ResolverClaims.

(** ** The configuration *)

Section Configuration.

(** C7.  [init] is idempotent: merging the empty object, or no argument at
    all, leaves the configuration as it is, and merging the same object a
    second time changes nothing. *)
Theorem init_idempotent :
  (∀ config : gmap (list N) value,
     init config (Some ∅) = config ∧ init config None = config)
  ∧ (∀ config X : gmap (list N) value,
       init (init config (Some X)) (Some X) = init config (Some X)).
Proof.
  unfold init. split.
  - intros config. simpl. by rewrite (left_id_L ∅ (∪)).
  - intros config X. simpl. by rewrite (assoc_L (∪)), (idemp_L (∪)).
Qed.

(** C8.  The merge never removes a key, and after construction
    [init({theme: "light"})] gives the default configuration with [theme]
    set to ["light"]: every other field keeps its default. *)
Theorem init_merge_keeps_fields :
  (∀ (config : gmap (list N) value) X, dom config ⊆ dom (init config X))
  ∧ init default_config (Some {[ str "theme" := VStr (str "light") ]})
    = <[ str "theme" := VStr (str "light") ]> default_config
  ∧ init default_config (Some {[ str "theme" := VStr (str "light") ]})
    = list_to_map [
        (str "theme", VStr (str "light"));
        (str "showDate", VBool true);
        (str "showFilename", VBool true);
        (str "showLineNumber", VBool true);
        (str "showLogLevel", VBool true);
        (str "useEmojis", VBool true);
        (str "disable", VBool false);
        (str "errorHandling", VStr (str "silent")) ].
Proof.
  split_and!.
  - intros config X. unfold init. rewrite dom_union. set_solver.
  - unfold init. simpl. by rewrite insert_union_singleton_l.
  - unfold init. simpl. rewrite <-insert_union_singleton_l.
    unfold default_config. simpl. by rewrite insert_insert_eq.
Qed.

End Configuration.

(** ** The facade *)

Section Facade.

Implicit Types (config : gmap (list N) value) (h : host) (args : list value).

Lemma get_prop_insert_ne config k k' v :
  k ≠ k' → get_prop (<[k := v]> config) k' = get_prop config k'.
Proof. intros Hne. unfold get_prop. by rewrite lookup_insert_ne. Qed.

Lemma known_level_detected tok :
  tok ∈ knownLevels →
  detectLogLevel (VStr tok) = VStr tok ∧ truthy (VStr tok) = true.
Proof.
  unfold knownLevels. rewrite !elem_of_cons, elem_of_nil.
  intros [->|[->|[->|[->|[]]]]]; by vm_compute.
Qed.



Ltac unfold_log :=
  unfold log, try_catch, log_try, log_catch, console_log, findRealCaller,
    get_args, set_args, emit, throw, mbind, M_bind, mret, M_ret;
  cbn [args_var calls stack console now app].

(** What the [try] block does, by cases on what the host hands over. *)
Lemma log_try_run config h args :
  log_try config h {| args_var := args; calls := [] |} =
    let detected := detectLogLevel (default VUndefined (args !! 0%nat)) in
    let lvl := if truthy detected then detected else VStr (str "[LOG]") in
    let rest := if truthy detected then drop 1 args else args in
    match stack h with
    | VStr trace =>
        (match console h (styled_call config h lvl (resolve trace) rest) with
         | None => Ok tt
         | Some e => Throw e
         end,
         {| args_var := rest;
            calls := [Resolver; ConsoleLog (styled_call config h lvl (resolve trace) rest)] |})
    | _ => (Throw TypeError, {| args_var := rest; calls := [Resolver] |})
    end.
Proof.
  unfold_log. cbv zeta.
  destruct (truthy (detectLogLevel _)); cbn [args_var calls app];
    destruct (stack h); try reflexivity;
    by destruct (console h _).
Qed.

Lemma log_catch_run config h e st :
  log_catch config h e st =
    if strict_eq_str (get_prop config (str "errorHandling")) (str "fallback") then
      (match console h (args_var st) with None => Ok tt | Some e' => Throw e' end,
       {| args_var := args_var st; calls := calls st ++ [ConsoleLog (args_var st)] |})
    else if strict_eq_str (get_prop config (str "errorHandling")) (str "throw") then
      (Throw e, st)
    else (Ok tt, st).
Proof.
  unfold_log.
  destruct (strict_eq_str _ (str "fallback")); [by destruct (console h _)|].
  by destruct (strict_eq_str _ (str "throw")).
Qed.

Lemma log_run config h args :
  truthy (get_prop config (str "disable")) = false →
  log config h args =
    match log_try config h {| args_var := args; calls := [] |} with
    | (Ok a, st) => (Ok a, calls st)
    | (Throw e, st) => let '(r, st') := log_catch config h e st in (r, calls st')
    end.
Proof.
  intros Hd. unfold log, try_catch. rewrite Hd.
  by destruct (log_try _ _ _) as [[a|e] st].
Qed.

(** C6.  With the [disable] flag set to [true], [log] returns at once: no
    call of [console.log], no call of the stack resolver. *)
Theorem log_disabled_is_silent config h args :
  config !! str "disable" = Some (VBool true) →
  log config h args = (Ok tt, []).
Proof. intros Hd. unfold log, get_prop. by rewrite Hd. Qed.

Lemma log_disabled_is_silent_witness :
  log (init default_config (Some {[ str "disable" := VBool true ]}))
      host_rendering [VStr (str "anything")]
  = (Ok tt, []).
Proof. apply log_disabled_is_silent. vm_compute. reflexivity. Defined.



Lemma join_snoc sep parts v :
  ∃ pre, join sep (parts ++ [v]) = pre ++ join_item v.
Proof.
  induction parts as [|x parts [pre IH]]; [by exists []|].
  exists (join_item x ++ sep ++ pre).
  rewrite <-app_comm_cons. cbn [join]. rewrite IH.
  destruct (parts ++ [v]) eqn:E; [by destruct parts|].
  by rewrite <-!app_assoc.
Qed.

Lemma prefixParts_snoc config h lvl d :
  ∃ parts, prefixParts config h lvl d = parts ++ [lvl].
Proof. eexists. unfold prefixParts. rewrite !app_assoc. reflexivity. Qed.

Lemma detectLogLevel_cases v :
  detectLogLevel v = VNull
  ∨ ∃ tok, tok ∈ knownLevels ∧ v = VStr tok ∧ detectLogLevel v = VStr tok.
Proof.
  unfold detectLogLevel.
  destruct (existsb (strict_eq_str v) knownLevels) eqn:E; [right|by left].
  apply existsb_exists in E as (tok & Htok%list_elem_of_In & Heq).
  destruct v as [| | |s|]; try done. simpl in Heq.
  apply bool_decide_eq_true in Heq as ->. by exists tok.
Qed.

(** C4.  Whatever the configuration, the level is the last segment pushed
    on the prefix, which ends with the level and a space; [log] does the
    same for every value of [showLogLevel]; and the prefix that an enabled
    logger hands to [console.log] ends with the level tag (one of the four
    tokens, or ["[LOG]"]) and a space. *)
Theorem level_tag_always_appended :
  (∀ config h lvl d,
     last (prefixParts config h lvl d) = Some lvl
     ∧ ∃ pre, prefix config h lvl d = pre ++ join_item lvl ++ str " ")
  ∧ (∀ config h args v,
       log (<[ str "showLogLevel" := v ]> config) h args = log config h args)
  ∧ (∀ config date sink trace args,
       truthy (get_prop config (str "disable")) = false →
       ∃ level pre style rest tail,
         (level ∈ knownLevels ∨ level = str "[LOG]")
         ∧ (log config {| stack := VStr trace; now := date; console := sink |} args).2
           = Resolver
             :: ConsoleLog (VStr (str "%c" ++ pre ++ level ++ str " ") :: style :: rest)
             :: tail).
Proof.
  assert (Hprefix : ∀ config h lvl d,
            ∃ pre, prefix config h lvl d = pre ++ join_item lvl ++ str " ").
  { intros config h lvl d. unfold prefix.
    destruct (prefixParts_snoc config h lvl d) as [parts ->].
    destruct (join_snoc (str " ") parts lvl) as [pre ->].
    exists pre. by rewrite <-app_assoc. }
  split_and!.
  - intros config h lvl d. split; [|done].
    destruct (prefixParts_snoc config h lvl d) as [parts ->]. apply last_snoc.
  - intros config h args v.
    unfold log, log_try, log_catch, styled_call, prefix, prefixParts.
    by rewrite !get_prop_insert_ne by done.
  - intros config date sink trace args Hd.
    rewrite log_run, log_try_run by done. cbn [stack console]. cbv zeta.
    set (h := {| stack := VStr trace; now := date; console := sink |}).
    assert (∃ level, (level ∈ knownLevels ∨ level = str "[LOG]")
              ∧ (if truthy (detectLogLevel (default VUndefined (args !! 0%nat)))
                 then detectLogLevel (default VUndefined (args !! 0%nat))
                 else VStr (str "[LOG]")) = VStr level) as (level & Hlevel & ->).
    { destruct (detectLogLevel_cases (default VUndefined (args !! 0%nat)))
        as [->|(tok & Htok & _ & ->)].
      - exists (str "[LOG]"). by split; [right|].
      - exists tok. split; [by left|].
        by rewrite (proj2 (known_level_detected tok Htok)). }
    destruct (Hprefix config h (VStr level) (resolve trace)) as [pre Hpre].
    unfold styled_call. rewrite Hpre. cbn [join_item to_string].
    destruct (sink _) as [e|].
    + rewrite log_catch_run. cbn [args_var calls console app].
      destruct (strict_eq_str _ (str "fallback")); [|destruct (strict_eq_str _ (str "throw"))];
        by repeat eexists.
    + by repeat eexists.
Qed.

(** With [showLogLevel] set to [false] the prefix still ends with the
    level tag. *)
Lemma level_tag_always_appended_witness :
  truthy (get_prop (init default_config (Some {[ str "showLogLevel" := VBool false ]}))
            (str "disable")) = false
  ∧ ∃ level pre style rest tail,
      (level ∈ knownLevels ∨ level = str "[LOG]")
      ∧ (log (init default_config (Some {[ str "showLogLevel" := VBool false ]}))
             {| stack := VStr trace_nested; now := str "now"; console := λ _, None |}
             [VStr (str "[ERROR]"); VStr (str "x")]).2
        = Resolver
          :: ConsoleLog (VStr (str "%c" ++ pre ++ level ++ str " ") :: style :: rest)
          :: tail.
Proof.
  split; [vm_compute; reflexivity|].
  apply (proj2 (proj2 level_tag_always_appended)). vm_compute. reflexivity.
Defined.





(** X13.  The fallback of the theme lookup does apply to a key that is
    neither in the table nor a property of [Object.prototype]: such a theme
    gets the style of ["dark"]. *)
Lemma getThemeStyles_unknown_theme theme level :
  themeStyles !! to_string theme = None →
  object_prototype (to_string theme) = VUndefined →
  getThemeStyles theme level = getThemeStyles (VStr (str "dark")) level.
Proof.
  intros Hown Hproto. unfold getThemeStyles, js_or.
  unfold get_prop at 3 4. by rewrite Hown, Hproto.
Qed.

(** X14.  Likewise a level that is neither in the two level tables nor a
    property of [Object.prototype] gets the style and the emoji of
    ["[LOG]"]. *)
Lemma lookups_unknown_level theme level :
  levelStyles !! to_string level = None →
  mapping !! to_string level = None →
  object_prototype (to_string level) = VUndefined →
  getThemeStyles theme level = getThemeStyles theme (VStr (str "[LOG]"))
  ∧ getLogLevelEmoji level = getLogLevelEmoji (VStr (str "[LOG]")).
Proof.
  intros Hstyle Hemoji Hproto. unfold getThemeStyles, getLogLevelEmoji, js_or.
  split.
  - unfold get_prop at 1 2. by rewrite Hstyle, Hproto.
  - unfold get_prop at 1 2. by rewrite Hemoji, Hproto.
Qed.

(** C9, on the failing input.  The theme ["constructor"] is none of the
    four themes, and its style is not the style of ["dark"]: the lookup finds
    the property that the table inherits from [Object.prototype].  The same
    happens to the level lookups on the key ["toString"]. *)
Theorem style_lookup_inherited_key :
  getThemeStyles (VStr (str "dark")) (VStr (str "[LOG]")) = VStr (str "color: white;")
  ∧ getThemeStyles (VStr (str "constructor")) (VStr (str "[LOG]"))
    = VStr (str "function Object() { [native code] }")
  ∧ getLogLevelEmoji (VStr (str "[LOG]")) = VStr [63743; 252; 236; 249]%N
  ∧ getLogLevelEmoji (VStr (str "toString"))
    = VOther true (str "function toString() { [native code] }").
Proof. by vm_compute. Qed.

End Facade.

(** * Further properties *)

(** ** The matcher on a well-formed frame *)

Section RegexForward.

Lemma rmatch_rlit s k t c : rmatch (rlit s) k (s ++ t) c = k t c.
Proof.
  induction s as [|x s IH]; [done|].
  change (rlit (x :: s)) with (RSeq (RAtom (AChar x)) (rlit s)).
  cbn [rmatch app atom_matches]. by rewrite N.eqb_refl.
Qed.

(** A lazy loop gives up the atoms of [w] one by one as long as the
    continuation fails on what is left of [w]. *)
Lemma star_lazy_skip {R} a (k : list N → option R) w t :
  Forall (λ x, atom_matches a x = true) w →
  (∀ w1 w2, w = w1 ++ w2 → w2 ≠ [] → k (w2 ++ t) = None) →
  star_lazy a k (w ++ t) = star_lazy a k t.
Proof.
  induction w as [|x w IH]; [done|].
  intros Hw Hk. inv Hw. cbn [app star_lazy].
  assert (k (x :: w ++ t) = None) as -> by (by apply (Hk [] (x :: w))).
  match goal with H : atom_matches a x = true |- _ => rewrite H end.
  apply IH; [done|]. intros w1 w2 -> Hne. by apply (Hk (x :: w1) w2).
Qed.

Lemma star_lazy_stop {R} a (k : list N → option R) t r :
  k t = Some r → star_lazy a k t = Some r.
Proof. intros Hk. destruct t; simpl; by rewrite Hk. Qed.

(** A greedy loop takes the whole run [w] when the rest cannot extend it
    and the continuation accepts the rest. *)
Lemma star_greedy_run {R} a (k : list N → option R) w t r :
  Forall (λ x, atom_matches a x = true) w →
  match t with x :: _ => atom_matches a x = false | [] => True end →
  k t = Some r →
  star_greedy a k (w ++ t) = Some r.
Proof.
  intros Hw Ht Hk. induction Hw as [|x w Hx Hw IH]; simpl.
  - destruct t as [|y t]; [done|]. simpl. by rewrite Ht.
  - by rewrite Hx, IH.
Qed.

Lemma take_app_suffix (w1 w2 t : list N) :
  take (length ((w1 ++ w2) ++ t) - length (w2 ++ t)) ((w1 ++ w2) ++ t) = w1.
Proof.
  rewrite <-app_assoc, !length_app.
  replace (_ - _)%nat with (length w1) by lia. apply take_app_length.
Qed.

Lemma take_app_rest (w t : list N) :
  take (length (w ++ t) - length t) (w ++ t) = w.
Proof.
  rewrite length_app. replace (_ - _)%nat with (length w) by lia.
  apply take_app_length.
Qed.

Lemma rmatch_group_star_lazy i a k w t c res :
  Forall (λ x, atom_matches a x = true) w →
  (∀ w1 w2, w = w1 ++ w2 → w2 ≠ [] → k (w2 ++ t) (<[i := w1]> c) = None) →
  k t (<[i := w]> c) = Some res →
  rmatch (RGroup i (RStar true a)) k (w ++ t) c = Some res.
Proof.
  intros Hw Hskip Hk. cbn [rmatch star].
  rewrite star_lazy_skip; [|done|].
  - apply star_lazy_stop. by rewrite take_app_rest.
  - intros w1 w2 -> Hne. rewrite take_app_suffix. by apply Hskip.
Qed.

Lemma rmatch_group_plus_lazy i a k x w t c res :
  Forall (λ x, atom_matches a x = true) (x :: w) →
  (∀ w1 w2, w = w1 ++ w2 → w2 ≠ [] → k (w2 ++ t) (<[i := x :: w1]> c) = None) →
  k t (<[i := x :: w]> c) = Some res →
  rmatch (RGroup i (RPlus true a)) k ((x :: w) ++ t) c = Some res.
Proof.
  intros Hw Hskip Hk. inv Hw. cbn [rmatch plus star app].
  match goal with H : atom_matches a x = true |- _ => rewrite H end.
  rewrite star_lazy_skip; [|done|].
  - apply star_lazy_stop.
    pose proof (take_app_rest (x :: w) t) as Ht. cbn [app] in Ht. by rewrite Ht.
  - intros w1 w2 -> Hne.
    pose proof (take_app_suffix (x :: w1) w2 t) as Ht. cbn [app] in Ht.
    rewrite Ht. by apply Hskip.
Qed.

Lemma rmatch_group_plus_greedy i a k w t c res :
  w ≠ [] → Forall (λ x, atom_matches a x = true) w →
  match t with x :: _ => atom_matches a x = false | [] => True end →
  k t (<[i := w]> c) = Some res →
  rmatch (RGroup i (RPlus false a)) k (w ++ t) c = Some res.
Proof.
  intros Hne Hw Ht Hk. destruct w as [|x w]; [done|]. inv Hw.
  cbn [rmatch plus star app].
  match goal with H : atom_matches a x = true |- _ => rewrite H end.
  apply star_greedy_run; [done|done|].
  pose proof (take_app_rest (x :: w) t) as Hx. cbn [app] in Hx. by rewrite Hx.
Qed.

Lemma regex_exec_head r s c :
  rmatch r (λ _ c, Some c) s ∅ = Some c → regex_exec r s = Some c.
Proof. intros H. destruct s; simpl; by rewrite H. Qed.

Lemma rmatch_seq r1 r2 k s c :
  rmatch (RSeq r1 r2) k s c = rmatch r1 (rmatch r2 k) s c.
Proof. reflexivity. Qed.

Lemma rmatch_rlit_mismatch a s k y t c :
  a ≠ y → rmatch (rlit (a :: s)) k (y :: t) c = None.
Proof.
  intros Hne. change (rlit (a :: s)) with (RSeq (RAtom (AChar a)) (rlit s)).
  cbn [rmatch atom_matches]. by rewrite (proj2 (N.eqb_neq a y) Hne).
Qed.

Lemma rmatch_group_plus_mismatch i lz a k y t c :
  atom_matches a y = false → rmatch (RGroup i (RPlus lz a)) k (y :: t) c = None.
Proof. intros Hy. cbn [rmatch plus]. by rewrite Hy. Qed.

Lemma rmatch_opt_take r k s c res :
  rmatch r k s c = Some res → rmatch (ROpt r) k s c = Some res.
Proof. intros H. cbn [rmatch]. by rewrite H. Qed.

Lemma no_colon_digit_inv (w1 : list N) d rest :
  no_colon_digit (w1 ++ 58%N :: d :: rest) = true → is_digit d = false.
Proof.
  induction w1 as [|x w1 IH]; cbn [app no_colon_digit].
  - rewrite N.eqb_refl. cbn [andb]. by destruct (is_digit d).
  - intros [_ H]%andb_prop. auto.
Qed.

End RegexForward.

(** Closes a decidable goal on concrete data by evaluation. *)
Ltac by_decide :=
  lazymatch goal with
  | |- ?P => refine (bool_decide_unpack P _); vm_compute; exact I
  end.

Section WellFormedFrame.

(** X1.  On a line [at f (p:n:c)] whose symbol [f] holds no space and no
    line terminator, whose path [p] is not empty, holds no line terminator
    and no colon followed by a digit, and whose [n] and [c] are non-empty
    runs of decimal digits, the frame pattern matches and captures exactly
    [f], [p], [n] and [c]. *)
Theorem frame_match_parenthesised f p n c :
  Forall (λ x, x ≠ 32%N ∧ is_line_terminator x = false) f →
  p ≠ [] → Forall (λ x, is_line_terminator x = false) p →
  no_colon_digit p = true →
  n ≠ [] → Forall (λ x, is_digit x = true) n →
  c ≠ [] → Forall (λ x, is_digit x = true) c →
  frame_match (str "at " ++ f ++ str " (" ++ p ++ str ":" ++ n ++ str ":" ++ c ++ str ")")
  = Some (<[4%nat := c]> (<[3%nat := n]> (<[2%nat := p]> (<[1%nat := f]> ∅)))).
Proof.
  intros Hf Hp Hpdot Hcolon Hn Hnd Hc Hcd.
  unfold frame_match. apply regex_exec_head.
  unfold frame_re, rcat. cbn [foldr].
  rewrite rmatch_seq, rmatch_rlit, rmatch_seq.
  apply rmatch_group_star_lazy.
  { eapply Forall_impl; [exact Hf|]. intros x [_ Hx]. simpl. by rewrite Hx. }
  { intros w1 [|y w2] Hw Hne; [done|].
    assert (y ≠ 32%N) as Hy.
    { rewrite Hw in Hf. apply Forall_app in Hf as [_ Hf].
      by apply Forall_cons in Hf as [[? _] _]. }
    cbn [app]. rewrite rmatch_seq. apply rmatch_rlit_mismatch. intros <-. by apply Hy. }
  change (str " (" ++ p ++ str ":" ++ n ++ str ":" ++ c ++ str ")")
    with (str " " ++ str "(" ++ p ++ str ":" ++ n ++ str ":" ++ c ++ str ")").
  rewrite rmatch_seq, rmatch_rlit, rmatch_seq.
  apply rmatch_opt_take. rewrite rmatch_rlit, rmatch_seq.
  destruct p as [|x p]; [done|].
  apply rmatch_group_plus_lazy.
  { eapply Forall_impl; [exact Hpdot|]. intros y Hy. simpl. by rewrite Hy. }
  { intros w1 [|y w2] Hw Hne; [done|]. cbn [app]. rewrite rmatch_seq.
    destruct (decide (y = 58%N)) as [->|Hy].
    - change (58%N :: w2 ++ str ":" ++ n ++ str ":" ++ c ++ str ")")
        with (str ":" ++ w2 ++ str ":" ++ n ++ str ":" ++ c ++ str ")").
      rewrite rmatch_rlit, rmatch_seq. destruct w2 as [|d w2].
      + change ([] ++ str ":" ++ n ++ str ":" ++ c ++ str ")")
          with (58%N :: n ++ str ":" ++ c ++ str ")").
        by apply rmatch_group_plus_mismatch.
      + cbn [app]. apply rmatch_group_plus_mismatch. simpl.
        apply (no_colon_digit_inv (x :: w1) d w2). rewrite Hw in Hcolon. exact Hcolon.
    - apply rmatch_rlit_mismatch. intros <-. by apply Hy. }
  rewrite rmatch_seq, rmatch_rlit, rmatch_seq.
  apply rmatch_group_plus_greedy; [done|done|done|].
  rewrite rmatch_seq, rmatch_rlit, rmatch_seq.
  apply rmatch_group_plus_greedy; [done|done|done|].
  rewrite rmatch_seq.
  apply rmatch_opt_take.
  rewrite <-(app_nil_r (str ")")) at 2. by rewrite rmatch_rlit.
Qed.

Lemma frame_match_parenthesised_witness :
  frame_match (str "at " ++ str "main" ++ str " (" ++ str "file:///home/u/app/main.js"
               ++ str ":" ++ str "12" ++ str ":" ++ str "3" ++ str ")")
  = Some (<[4%nat := str "3"]> (<[3%nat := str "12"]>
            (<[2%nat := str "file:///home/u/app/main.js"]> (<[1%nat := str "main"]> ∅)))).
Proof.
  apply frame_match_parenthesised; by_decide.
Defined.

End WellFormedFrame.

(** ** Lines that cannot be frames, and what the line field holds *)

Section FrameLimits.

Lemma spaces_app (a b : list N) : spaces (a ++ b) = (spaces a + spaces b)%nat.
Proof. unfold spaces. by rewrite filter_app, length_app. Qed.

Lemma skipped_when_no_match ls :
  Forall (λ l, frame_match l = None) ls → forallb skipped_line ls = true.
Proof.
  induction 1 as [|l ls Hl _ IH]; [done|].
  cbn [forallb]. unfold skipped_line at 1. by rewrite Hl, IH.
Qed.

(** X2.  The frame pattern needs two spaces: a line with fewer than two
    does not match, so a trace whose lines after the header are all such
    lines (locations without a symbol, as V8 prints top-level calls) gives
    the unknown descriptor. *)
Theorem frame_needs_two_spaces :
  (∀ l, (spaces l < 2)%nat → frame_match l = None)
  ∧ (∀ trace,
       Forall (λ l, (spaces l < 2)%nat) (drop 1 (stackLines trace)) →
       resolve trace = unknown_descriptor).
Proof.
  assert (Hline : ∀ l, (spaces l < 2)%nat → frame_match l = None).
  { intros l Hl. destruct (frame_match l) as [m|] eqn:Hm; [|done].
    destruct (frame_match_shape l m Hm)
      as (f & p & n & col & _ & _ & _ & _ & _ & _ & _ & _ & _ & pre & op & cl & post & _ & _ & ->).
    rewrite !spaces_app in Hl.
    change (spaces (str "at ")) with 1%nat in Hl.
    change (spaces (str " ")) with 1%nat in Hl. lia. }
  split; [done|].
  intros trace Hall. unfold resolve.
  rewrite <-(app_nil_r (drop 1 _)), skipped_lines_scan; [done|].
  apply skipped_when_no_match. eapply Forall_impl; [exact Hall|]. auto.
Qed.

Lemma frame_needs_two_spaces_witness :
  frame_match (str "at file:///home/u/app/main.js:20:1") = None
  ∧ resolve trace_top_level = unknown_descriptor.
Proof.
  split.
  - apply (proj1 frame_needs_two_spaces). by_decide.
  - apply (proj2 frame_needs_two_spaces). by_decide.
Defined.

(** X3.  The line field is a non-empty run of decimal digits, and so is
    not ["?"], unless the whole descriptor is the unknown one: the default
    [|| "?"] of the source is never taken on a matched frame. *)
Theorem resolve_line_is_number trace :
  resolve trace = unknown_descriptor
  ∨ (line (resolve trace) ≠ []
     ∧ Forall (λ c, is_digit c = true) (line (resolve trace))
     ∧ line (resolve trace) ≠ str "?").
Proof.
  unfold resolve.
  destruct (scan_cases (drop 1 (stackLines trace))) as [->|(l & m & _ & Hm & _ & ->)];
    [by left|right].
  destruct (frame_match_shape l m Hm) as (f & p & n & col & _ & _ & Hn & _).
  destruct (frame_lineNum_token l m n Hm Hn) as (Hline & Hne & Hdigits).
  unfold frame_descriptor. cbn [line]. rewrite Hline.
  split_and!; [done|done|].
  intros ->. by apply Forall_cons in Hdigits as [? _].
Qed.

End FrameLimits.

(** ** Splitting the trace into lines *)

Section TraceLines.

Lemma split_by_app p (a : list N) c b :
  p c = true → split_by p (a ++ c :: b) = split_by p a ++ split_by p b.
Proof.
  intros Hc. induction a as [|x a IH]; cbn [app split_by].
  - by rewrite Hc.
  - rewrite IH. destruct (p x); [done|].
    pose proof (split_by_nonempty p a). by destruct (split_by p a).
Qed.

Lemma split_by_no_separator p (a : list N) :
  Forall (λ x, p x = false) a → split_by p a = [a].
Proof.
  induction 1 as [|x a Hx _ IH]; [done|]. cbn [split_by]. by rewrite Hx, IH.
Qed.

Lemma stackLines_app a b :
  stackLines (a ++ 10%N :: b) = stackLines a ++ stackLines b.
Proof. unfold stackLines. by rewrite split_by_app, fmap_app. Qed.

Lemma stackLines_one_line a :
  Forall (λ x, x ≠ 10%N) a → stackLines a = [trim a].
Proof.
  intros Ha. unfold stackLines. rewrite split_by_no_separator; [done|].
  eapply Forall_impl; [exact Ha|]. intros x Hx. by apply N.eqb_neq.
Qed.

(** X4.  The first line of the trace is never read: two traces that differ
    in their first line only give the same descriptor, even when that line
    looks like a frame; and a trace of one line gives the unknown
    descriptor. *)
Theorem resolve_ignores_header :
  (∀ h1 h2 rest,
     Forall (λ x, x ≠ 10%N) h1 → Forall (λ x, x ≠ 10%N) h2 →
     resolve (h1 ++ 10%N :: rest) = resolve (h2 ++ 10%N :: rest))
  ∧ (∀ h, Forall (λ x, x ≠ 10%N) h → resolve h = unknown_descriptor).
Proof.
  split.
  - intros h1 h2 rest H1 H2. unfold resolve.
    by rewrite !stackLines_app, (stackLines_one_line h1), (stackLines_one_line h2).
  - intros h Hh. unfold resolve. by rewrite stackLines_one_line.
Qed.

Lemma resolve_ignores_header_witness :
  resolve (str "at main (/srv/app.js:1:2)" ++ 10%N :: str "  at run (/srv/run.js:3:4)")
  = resolve (str "Error" ++ 10%N :: str "  at run (/srv/run.js:3:4)")
  ∧ resolve (str "at main (/srv/app.js:1:2)") = unknown_descriptor.
Proof.
  split.
  - apply (proj1 resolve_ignores_header (str "at main (/srv/app.js:1:2)") (str "Error"));
      by_decide.
  - apply (proj2 resolve_ignores_header (str "at main (/srv/app.js:1:2)")); by_decide.
Defined.

Lemma trim_start_app_l ws (s : list N) :
  Forall (λ x, is_trimmed x = true) ws → trim_start (ws ++ s) = trim_start s.
Proof. induction 1 as [|x ws Hx _ IH]; [done|]. cbn [app trim_start]. by rewrite Hx. Qed.

Lemma trim_start_all ws :
  Forall (λ x, is_trimmed x = true) ws → trim_start ws = [].
Proof. intros H. rewrite <-(app_nil_r ws). by rewrite trim_start_app_l. Qed.

Lemma trim_start_app_r (s ws : list N) :
  Forall (λ x, is_trimmed x = true) ws →
  trim_start (s ++ ws) = match trim_start s with [] => [] | _ => trim_start s ++ ws end.
Proof.
  intros Hws. induction s as [|x s IH]; cbn [app trim_start].
  - by apply trim_start_all.
  - destruct (is_trimmed x); [done|]. done.
Qed.

Lemma trim_padding ws1 s ws2 :
  Forall (λ x, is_trimmed x = true) ws1 → Forall (λ x, is_trimmed x = true) ws2 →
  trim (ws1 ++ s ++ ws2) = trim s.
Proof.
  intros H1 H2. unfold trim. rewrite trim_start_app_l, trim_start_app_r by done.
  destruct (trim_start s) as [|x s'] eqn:E; [done|].
  rewrite rev_app_distr, trim_start_app_l; [done|].
  by apply List.Forall_rev.
Qed.

(** X5.  White space around a line of the trace does not count: the
    indentation of a frame, and the carriage return that ends it in a trace
    with Windows line ends, change nothing in the descriptor, on the last
    line as on any other. *)
Theorem resolve_ignores_padding :
  (∀ a ws1 s ws2 b,
     Forall (λ x, is_trimmed x = true ∧ x ≠ 10%N) ws1 →
     Forall (λ x, is_trimmed x = true ∧ x ≠ 10%N) ws2 →
     Forall (λ x, x ≠ 10%N) s →
     resolve (a ++ 10%N :: (ws1 ++ s ++ ws2) ++ 10%N :: b)
     = resolve (a ++ 10%N :: s ++ 10%N :: b))
  ∧ (∀ a ws1 s ws2,
       Forall (λ x, is_trimmed x = true ∧ x ≠ 10%N) ws1 →
       Forall (λ x, is_trimmed x = true ∧ x ≠ 10%N) ws2 →
       Forall (λ x, x ≠ 10%N) s →
       resolve (a ++ 10%N :: ws1 ++ s ++ ws2) = resolve (a ++ 10%N :: s)).
Proof.
  assert (Hline : ∀ ws1 s ws2,
            Forall (λ x, is_trimmed x = true ∧ x ≠ 10%N) ws1 →
            Forall (λ x, is_trimmed x = true ∧ x ≠ 10%N) ws2 →
            Forall (λ x, x ≠ 10%N) s →
            stackLines (ws1 ++ s ++ ws2) = stackLines s).
  { intros ws1 s ws2 H1 H2 Hs.
    rewrite (stackLines_one_line s), (stackLines_one_line (ws1 ++ s ++ ws2)).
    - f_equal. apply trim_padding; (eapply Forall_impl; [eassumption|]); by intros ? [? _].
    - rewrite !Forall_app. split_and!; [|done|];
        (eapply Forall_impl; [eassumption|]); by intros ? [_ ?].
    - done. }
  split.
  - intros a ws1 s ws2 b H1 H2 Hs. unfold resolve.
    by rewrite !stackLines_app, Hline.
  - intros a ws1 s ws2 H1 H2 Hs. unfold resolve.
    by rewrite !stackLines_app, Hline.
Qed.

Lemma resolve_ignores_padding_witness :
  resolve ((str "Error" ++ [13%N]) ++ 10%N
           :: (str "    " ++ str "at main (C:\\app\\main.js:12:3)" ++ [13%N])
           ++ 10%N :: str "    at start (C:\\app\\boot.js:4:1)")
  = resolve ((str "Error" ++ [13%N]) ++ 10%N
             :: str "at main (C:\\app\\main.js:12:3)"
             ++ 10%N :: str "    at start (C:\\app\\boot.js:4:1)").
Proof. apply (proj1 resolve_ignores_padding); by_decide. Defined.

End TraceLines.

(** ** The logger filter is a substring test *)

Section LoggerFilter.

Lemma starts_with_spec (sub s : list N) :
  starts_with sub s = true ↔ ∃ b, s = sub ++ b.
Proof.
  revert s. induction sub as [|x sub IH]; intros s; cbn [starts_with].
  - split; [by exists s|done].
  - destruct s as [|y s].
    + split; [done|]. by intros [b ?].
    + rewrite andb_true_iff, N.eqb_eq, IH. split.
      * intros [-> [b ->]]. by exists b.
      * intros [b [= -> ->]]. split; [done|by exists b].
Qed.

Lemma includes_spec (s sub : list N) :
  includes s sub = true ↔ ∃ a b, s = a ++ sub ++ b.
Proof.
  induction s as [|y s IH]; cbn [includes]; rewrite orb_true_iff, starts_with_spec.
  - split.
    + intros [[b Hb]|?]; [|done]. by exists [], b.
    + intros (a & b & Hs). left. exists b.
      destruct a; [done|discriminate].
  - rewrite IH. split.
    + intros [[b Hb]|(a & b & ->)]; [by exists [], b|by exists (y :: a), b].
    + intros ([|x a] & b & Hs).
      * left. by exists b.
      * right. injection Hs as -> ->. by exists a, b.
Qed.

(** X6.  A matched frame is passed over exactly when its path token holds
    one of the two marker texts, or its symbol token holds the text
    [ConsoleLogExtension], anywhere inside: a caller whose own names hold
    one of these texts is passed over too. *)
Theorem logger_frame_iff_substring l m f p :
  frame_match l = Some m → m !! 1%nat = Some f → m !! 2%nat = Some p →
  is_logger_frame m = true
  ↔ (∃ a b, p = a ++ str "console-logger-fresh.js" ++ b)
    ∨ (∃ a b, p = a ++ str "console_log_extension_fresh" ++ b)
    ∨ (∃ a b, f = a ++ str "ConsoleLogExtension" ++ b).
Proof.
  intros Hm Hf Hp.
  rewrite (is_logger_frame_tokens l m f p Hm Hf Hp). unfold marked.
  rewrite !orb_true_iff, !includes_spec. tauto.
Qed.

Lemma logger_frame_iff_substring_witness :
  is_logger_frame
    (<[4%nat := str "2"]> (<[3%nat := str "1"]> (<[2%nat := str "/srv/t.js"]>
       (<[1%nat := str "MyConsoleLogExtensionTest.run"]> ∅)))) = true
  ∧ resolve trace_homonym = unknown_descriptor.
Proof.
  split; [|by vm_compute].
  apply (logger_frame_iff_substring
           (str "at MyConsoleLogExtensionTest.run (/srv/t.js:1:2)") _
           (str "MyConsoleLogExtensionTest.run") (str "/srv/t.js"));
    [by vm_compute..|].
  right. right. by exists (str "My"), (str "Test.run").
Defined.

End LoggerFilter.

(** ** Successive configurations *)

Section InitSequences.

Implicit Types (config : gmap (list N) value) (h : host) (args : list value).

Lemma get_prop_init_singleton config k v :
  get_prop (init config (Some {[ k := v ]})) k = v.
Proof.
  unfold get_prop, init. cbn [default from_option id].
  by rewrite <-insert_union_singleton_l, lookup_insert_eq.
Qed.

Lemma init_overwrite config k v w :
  init (init config (Some {[ k := v ]})) (Some {[ k := w ]})
  = init config (Some {[ k := w ]}).
Proof.
  unfold init. cbn [default from_option id].
  by rewrite <-!insert_union_singleton_l, insert_insert_eq.
Qed.

(** X7.  Two calls of [init] amount to one call with the second object
    spread over the first; on the same key the later value wins, whatever
    the earlier one was. *)
Theorem init_compose :
  (∀ config X Y,
     init (init config (Some X)) (Some Y) = init config (Some (Y ∪ X)))
  ∧ (∀ config k v w,
       init (init config (Some {[ k := v ]})) (Some {[ k := w ]})
       = init config (Some {[ k := w ]})).
Proof.
  split.
  - intros config X Y. unfold init. cbn [default from_option id]. by rewrite (assoc_L (∪)).
  - apply init_overwrite.
Qed.

(** X8.  After [init({disable: v})] with any truthy [v] (the string
    ["false"] is one), [log] makes no call at all, whatever the
    configuration was before; and a later [init({disable: w})] makes [log]
    behave as if the first had never been made. *)
Theorem log_disable_toggle :
  (∀ config v h args,
     truthy v = true →
     log (init config (Some {[ str "disable" := v ]})) h args = (Ok tt, []))
  ∧ (∀ config v w h args,
       log (init (init config (Some {[ str "disable" := v ]}))
                 (Some {[ str "disable" := w ]})) h args
       = log (init config (Some {[ str "disable" := w ]})) h args).
Proof.
  split.
  - intros config v h args Hv. unfold log.
    by rewrite get_prop_init_singleton, Hv.
  - intros config v w h args. by rewrite init_overwrite.
Qed.

Lemma log_disable_toggle_witness :
  log (init default_config (Some {[ str "disable" := VStr (str "false") ]}))
      host_rendering [VStr (str "x")]
  = (Ok tt, []).
Proof. apply (proj1 log_disable_toggle). by vm_compute. Defined.

End InitSequences.

(** ** What [log] can do to its caller and to the host *)

Section LogSafety.

Implicit Types (config : gmap (list N) value) (h : host) (args : list value).

Lemma strict_eq_str_ne v s : v ≠ VStr s → strict_eq_str v s = false.
Proof.
  destruct v as [| | |x|]; try done. intros Hne. cbn [strict_eq_str].
  unfold str_eqb. apply bool_decide_eq_false_2. congruence.
Qed.

(** X9.  Unless the error policy is ["fallback"] or ["throw"], [log]
    returns normally on every host and every argument list: no failure of
    the resolver or of [console.log] reaches the caller. *)
Theorem log_returns_by_default config h args :
  get_prop config (str "errorHandling") ≠ VStr (str "fallback") →
  get_prop config (str "errorHandling") ≠ VStr (str "throw") →
  (log config h args).1 = Ok tt.
Proof.
  intros Hf Ht.
  destruct (truthy (get_prop config (str "disable"))) eqn:Hd.
  { unfold log. by rewrite Hd. }
  rewrite log_run by done.
  destruct (log_try config h _) as [[[]|e] st]; [done|].
  rewrite log_catch_run, !strict_eq_str_ne by done. done.
Qed.

Lemma log_returns_by_default_witness :
  (log default_config host_hostile [VStr (str "[ERROR]"); VStr (str "x")]).1 = Ok tt.
Proof. apply log_returns_by_default; by vm_compute. Defined.

(** X10.  One call of [log] enters the resolver at most once, and before
    any call of [console.log]; it calls [console.log] at most twice; and
    the host renders at most one of these calls. *)
Theorem log_call_bounds config h args :
  ∃ tail,
    ((log config h args).2 = [] ∨ (log config h args).2 = Resolver :: tail)
    ∧ (length tail ≤ 2)%nat
    ∧ Forall (λ e, e ≠ Resolver) tail
    ∧ (length (output h (log config h args).2) ≤ 1)%nat.
Proof.
  destruct (truthy (get_prop config (str "disable"))) eqn:Hd.
  { exists []. unfold log. rewrite Hd. cbn. split_and!; [by left|lia|done|lia]. }
  rewrite log_run, log_try_run by done. cbv zeta.
  set (rest := if truthy _ then drop 1 args else args).
  set (lvl := if truthy _ then _ else _).
  destruct (stack h) as [| | |trace|].
  4: destruct (console h (styled_call config h lvl (resolve trace) rest)) as [e|] eqn:Hc.
  5: { eexists. cbn [snd calls]. split_and!; [by right|..].
       - cbn. lia.
       - by repeat constructor.
       - unfold output. cbn. rewrite Hc. cbn. lia. }
  all: rewrite log_catch_run; cbn [args_var calls app];
    destruct (strict_eq_str _ (str "fallback"));
    [destruct (console h rest) eqn:Hr
    |destruct (strict_eq_str _ (str "throw"))].
  all: eexists; cbn [snd].
  all: split_and!; [by right|..].
  all: first [ by (cbn; lia)
             | by repeat constructor
             | by (unfold output; cbn; rewrite ?Hc, ?Hr; cbn; lia) ].
Qed.



End LogSafety.

(** ** Symbols of two words, and the fallbacks of the lookups *)

Section TwoWordSymbol.

Lemma rmatch_opt_skip r k s c :
  rmatch r k s c = None → rmatch (ROpt r) k s c = k s c.
Proof. intros H. cbn [rmatch]. by rewrite H. Qed.

(** X12.  On a line [at w1 w2 (p:n:c)], as V8 prints the frame of a
    constructor ([new Foo]) or of an async function, the symbol captured is
    the first word [w1] alone, and the path captured starts at the second
    word: the function name reported is [new] or [async].  (The first word
    holds no space, the second does not start with a parenthesis, and
    nothing before the line number is a line terminator or a colon followed
    by a digit.) *)
Theorem frame_match_two_words w1 y w2 p n c :
  Forall (λ x, x ≠ 32%N ∧ is_line_terminator x = false) w1 →
  y ≠ 40%N →
  Forall (λ x, is_line_terminator x = false) ((y :: w2) ++ str " (" ++ p) →
  no_colon_digit ((y :: w2) ++ str " (" ++ p) = true →
  n ≠ [] → Forall (λ x, is_digit x = true) n →
  c ≠ [] → Forall (λ x, is_digit x = true) c →
  frame_match (str "at " ++ w1 ++ str " " ++ ((y :: w2) ++ str " (" ++ p)
               ++ str ":" ++ n ++ str ":" ++ c ++ str ")")
  = Some (<[4%nat := c]> (<[3%nat := n]>
            (<[2%nat := (y :: w2) ++ str " (" ++ p]> (<[1%nat := w1]> ∅)))).
Proof.
  intros Hw1 Hy Hdot Hcolon Hn Hnd Hc Hcd.
  set (q := w2 ++ str " (" ++ p) in *.
  change ((y :: w2) ++ str " (" ++ p) with (y :: q) in *.
  unfold frame_match. apply regex_exec_head.
  unfold frame_re, rcat. cbn [foldr].
  rewrite rmatch_seq, rmatch_rlit, rmatch_seq.
  apply rmatch_group_star_lazy.
  { eapply Forall_impl; [exact Hw1|]. intros x [_ Hx]. simpl. by rewrite Hx. }
  { intros a [|z b] Hw Hne; [done|].
    assert (z ≠ 32%N) as Hz.
    { rewrite Hw in Hw1. apply Forall_app in Hw1 as [_ Hw1].
      by apply Forall_cons in Hw1 as [[? _] _]. }
    cbn [app]. rewrite rmatch_seq. apply rmatch_rlit_mismatch. intros <-. by apply Hz. }
  rewrite rmatch_seq, rmatch_rlit, rmatch_seq.
  rewrite rmatch_opt_skip.
  2: { cbn [app]. apply rmatch_rlit_mismatch. intros <-. by apply Hy. }
  rewrite rmatch_seq.
  apply rmatch_group_plus_lazy.
  { eapply Forall_impl; [exact Hdot|]. intros z Hz. simpl. by rewrite Hz. }
  { intros a [|z b] Hw Hne; [done|]. cbn [app]. rewrite rmatch_seq.
    destruct (decide (z = 58%N)) as [->|Hz].
    - change (58%N :: b ++ str ":" ++ n ++ str ":" ++ c ++ str ")")
        with (str ":" ++ b ++ str ":" ++ n ++ str ":" ++ c ++ str ")").
      rewrite rmatch_rlit, rmatch_seq. destruct b as [|d b].
      + change ([] ++ str ":" ++ n ++ str ":" ++ c ++ str ")")
          with (58%N :: n ++ str ":" ++ c ++ str ")").
        by apply rmatch_group_plus_mismatch.
      + cbn [app]. apply rmatch_group_plus_mismatch. simpl.
        apply (no_colon_digit_inv (y :: a) d b). rewrite Hw in Hcolon. exact Hcolon.
    - apply rmatch_rlit_mismatch. intros <-. by apply Hz. }
  rewrite rmatch_seq, rmatch_rlit, rmatch_seq.
  apply rmatch_group_plus_greedy; [done|done|done|].
  rewrite rmatch_seq, rmatch_rlit, rmatch_seq.
  apply rmatch_group_plus_greedy; [done|done|done|].
  rewrite rmatch_seq.
  apply rmatch_opt_take.
  rewrite <-(app_nil_r (str ")")) at 2. by rewrite rmatch_rlit.
Qed.

Lemma frame_match_two_words_witness :
  frame_match (str "at " ++ str "new" ++ str " " ++ (str "Foo" ++ str " (" ++ str "/srv/app.js")
               ++ str ":" ++ str "7" ++ str ":" ++ str "11" ++ str ")")
  = Some (<[4%nat := str "11"]> (<[3%nat := str "7"]>
            (<[2%nat := str "Foo" ++ str " (" ++ str "/srv/app.js"]>
               (<[1%nat := str "new"]> ∅)))).
Proof.
  apply (frame_match_two_words (str "new") 70%N (str "oo") (str "/srv/app.js")
           (str "7") (str "11")); by_decide.
Defined.

Lemma getThemeStyles_unknown_theme_witness :
  getThemeStyles (VStr (str "solarized")) (VStr (str "[INFO]"))
  = getThemeStyles (VStr (str "dark")) (VStr (str "[INFO]")).
Proof. apply getThemeStyles_unknown_theme; by vm_compute. Defined.

Lemma lookups_unknown_level_witness :
  getThemeStyles (VStr (str "neon")) (VStr (str "[TRACE]"))
  = getThemeStyles (VStr (str "neon")) (VStr (str "[LOG]"))
  ∧ getLogLevelEmoji (VStr (str "[TRACE]")) = getLogLevelEmoji (VStr (str "[LOG]")).
Proof. apply lookups_unknown_level; by vm_compute. Defined.

End TwoWordSymbol.
